(** * openage renderer: uniform buffer layout, render passes, optimise, render

    A shallow embedding of

    - [GlRenderer::add_uniform_buffer], [GlRenderer::optimise] and
      [GlRenderer::render] from [libopenage/renderer/opengl/renderer.cpp];
    - the [RenderPass] interface declared in
      [libopenage/renderer/render_pass.h].

    Machine integers are [Z] with the wrap-around of [size_t] written out,
    the [std::unordered_map] of block uniforms is a [gmap] keyed by the
    uniform name, [std::vector] is [list], and the OpenGL side effects are a
    log of calls threaded through a small state monad. *)

From Stdlib Require Import ZArith List Lia Bool Permutation Sorted.
From stdpp Require Import base gmap strings list.

Local Open Scope Z_scope.

(** ** [size_t] arithmetic *)

Module SizeT.

(** [size_t] is 64 bits wide on the platforms openage builds for. *)
Definition width : Z := 64.
Definition modulus : Z := 2 ^ width.

Definition wrap (z : Z) : Z := z mod modulus.

(** [a + b] on [size_t]. *)
Definition add (a b : Z) : Z := wrap (a + b).

(** [a % b] on [size_t]; a zero divisor has no defined result. *)
Definition rem (a b : Z) : option Z :=
  if decide (b = 0) then None else Some (a mod b).

End SizeT.

(** ** Uniform buffer layout: [GlRenderer::add_uniform_buffer] *)

Module UniformLayout.

(** One entry of [UniformBufferInfo::get_inputs()]. *)
Record UniformBufferInput (ubo_input_t : Type) := mkInput {
  name : string;
  type : ubo_input_t;
  count : Z;
}.
Arguments mkInput {ubo_input_t}.
Arguments name {ubo_input_t}.
Arguments type {ubo_input_t}.
Arguments count {ubo_input_t}.

(** [GlInBlockUniform{type, offset, size, stride, count}]. *)
Record GlInBlockUniform (gl_ubo_t : Type) := mkUniform {
  u_type : gl_ubo_t;
  u_offset : Z;
  u_size : Z;
  u_stride : Z;
  u_count : Z;
}.
Arguments mkUniform {gl_ubo_t}.
Arguments u_type {gl_ubo_t}.
Arguments u_offset {gl_ubo_t}.
Arguments u_size {gl_ubo_t}.
Arguments u_stride {gl_ubo_t}.
Arguments u_count {gl_ubo_t}.

(** [std::unordered_map::emplace]: the element is constructed only when
    the key is not yet in the map. *)
Definition emplace {V} (k : string) (v : V) (m : gmap string V) : gmap string V :=
  match m !! k with
  | Some _ => m
  | None => <[k:=v]> m
  end.

Section add_uniform_buffer.

(** The input type enumeration, the GL type it is looked up to, the
    layout convention and the three helpers of
    [resources::UniformBufferInfo] live in headers outside the
    files embedded here; the function is parametric in them. *)
Context {ubo_input_t gl_ubo_t layout_t : Type}.
Variable GL_UBO_INPUT_TYPE : ubo_input_t -> gl_ubo_t.
Variable get_size : UniformBufferInput ubo_input_t -> layout_t -> Z.
Variable get_stride_size : ubo_input_t -> layout_t -> Z.

(** [resources::UniformBufferInfo]: its inputs, its layout, and the
    total size it reports through [info.get_size()]. *)
Record UniformBufferInfo := mkInfo {
  get_inputs : list (UniformBufferInput ubo_input_t);
  get_layout : layout_t;
  info_get_size : Z;
}.

(** The loop state: the running [offset] and the [uniforms] map. *)
Definition loop_state : Type := Z * gmap string (GlInBlockUniform gl_ubo_t).

(** One iteration of the [for (auto const &input : inputs)] loop. *)
Definition loop_body (layout : layout_t) (st : loop_state)
    (input : UniformBufferInput ubo_input_t) : option loop_state :=
  let '(offset, uniforms) := st in
  let type_ := GL_UBO_INPUT_TYPE (type input) in
  let size := get_size input layout in
  (* offset += offset % size; *)
  match SizeT.rem offset size with
  | None => None
  | Some r =>
    let offset := SizeT.add offset r in
    let uniforms :=
      emplace (name input)
              (mkUniform type_ offset
                         (get_size input layout)
                         (get_stride_size (type input) layout)
                         (count input))
              uniforms in
    (* offset += size; *)
    Some (SizeT.add offset size, uniforms)
  end.

Fixpoint loop (layout : layout_t) (st : loop_state)
    (inputs : list (UniformBufferInput ubo_input_t)) : option loop_state :=
  match inputs with
  | [] => Some st
  | input :: rest =>
    match loop_body layout st input with
    | None => None
    | Some st' => loop layout st' rest
    end
  end.

(** The arguments handed to the [GlUniformBuffer] constructor: the data
    size and the uniform table. *)
Record GlUniformBuffer := mkBuffer {
  data_size : Z;
  uniforms : gmap string (GlInBlockUniform gl_ubo_t);
}.

Definition add_uniform_buffer (info : UniformBufferInfo) : option GlUniformBuffer :=
  match loop (get_layout info) (0, ∅) (get_inputs info) with
  | None => None
  | Some (_, uniforms) => Some (mkBuffer (info_get_size info) uniforms)
  end.

(** The offset the code assigns to an input that follows a block ending
    at [prev_end]. *)
Definition assigned_offset (prev_end size : Z) : Z :=
  SizeT.add prev_end (prev_end mod size).

End add_uniform_buffer.

(** What the layout rule asks for: the smallest multiple of [size] that is
    not below [prev_end]. *)
Definition aligned_offset (prev_end size : Z) : Z :=
  ((prev_end + size - 1) / size) * size.

(** Modelled from the spec: the input types of the worked example and
    their sizes under the standard packed convention (a float takes 4
    bytes, a 4-component vector 16); the table itself is in
    [renderer/resources/buffer_info.cpp], which is outside the files embedded here. *)
Inductive ubo_input_t := F32 | V4F32.

Inductive ubo_layout_t := STD140.

Definition std140_get_size (input : UniformBufferInput ubo_input_t)
    (layout : ubo_layout_t) : Z :=
  match type input with
  | F32 => 4
  | V4F32 => 16
  end.

(** The inputs [[vec4 a, float b, vec4 c]]. *)
Definition vec4_float_vec4 : list (UniformBufferInput ubo_input_t) :=
  [mkInput "a" V4F32 1; mkInput "b" F32 1; mkInput "c" V4F32 1].

End UniformLayout.

(** ** [std::stable_sort] *)

Section stable_sort.

Context {A : Type}.

(** [comp a b] is the strict "less than" handed to [std::stable_sort]. *)
Variable comp : A -> A -> bool.

(** [x] enters in front of a sorted run: it passes the elements strictly
    smaller than itself and stops at the first one that is not, so it
    stays ahead of every equivalent element that came after it. *)
Fixpoint stable_insert (x : A) (l : list A) : list A :=
  match l with
  | [] => [x]
  | y :: l' => if comp y x then y :: stable_insert x l' else x :: y :: l'
  end.

(** The arrangement [std::stable_sort] is specified to produce: ordered by
    [comp], equivalent elements in their original order. The arrangement
    is unique ([stable_sort_unique] below), so any stable algorithm
    computes this list. *)
Fixpoint stable_sort (l : list A) : list A :=
  match l with
  | [] => []
  | x :: l' => stable_insert x (stable_sort l')
  end.

End stable_sort.

(** ** Renderables, layers and render passes *)

(** Resource handles. The renderer only moves these around and hands them
    to OpenGL; a handle is modelled by the identity of the resource. *)
Record RenderTarget := mkTarget { target_id : nat }.
Record GlGeometry := mkGeometry { geometry_id : nat }.

(** [GlShaderProgram::get_handle()] is the [GLuint] name of the program. *)
Record GlShaderProgram := mkProgram { get_handle : Z }.

(** [GlUniformInput::get_program()] is the program the input belongs to. *)
Record GlUniformInput := mkUniformInput {
  input_id : nat;
  get_program : GlShaderProgram;
}.

(** [Renderable], with the four members [renderer.cpp] reads. The uniform
    input is always a live [GlUniformInput] (the casts in [optimise] and
    [render] are dereferenced unchecked); the geometry may be [nullptr]. *)
Record Renderable := mkRenderable {
  uniform : GlUniformInput;
  geometry : option GlGeometry;
  alpha_blending : bool;
  depth_test : bool;
}.

(** [struct Layer]. [length] counts elements of a [std::vector], so it is a
    natural number that never reaches the [size_t] limit. *)
Record Layer := mkLayer {
  priority : Z;
  length : nat;
}.

Module RenderPass.

(** The three data members of [class RenderPass]. *)
Record t := mk {
  renderables : list Renderable;
  target : RenderTarget;
  layers : list Layer;
}.

(** Modelled from the spec: [LAYER_PRIORITY_MAX] is declared in
    [renderer/definitions.h], which is outside the files embedded here; priorities
    are signed 64-bit integers and the default is their maximum. *)
Definition LAYER_PRIORITY_MAX : Z := 2 ^ 63 - 1.

(** Modelled from the spec: the bodies of the [RenderPass] member
    functions are in [render_pass.cpp], which is outside the files embedded here.
    The accessors return the members. *)
Definition get_renderables (p : t) : list Renderable := renderables p.

(** Modelled from the spec: accessor of [render_pass.cpp]. *)
Definition get_layers (p : t) : list Layer := layers p.

(** Modelled from the spec: accessor of [render_pass.cpp]. *)
Definition get_target (p : t) : RenderTarget := target p.

(** Modelled from the spec: [set_target] of [render_pass.cpp] only
    changes the target. *)
Definition set_target (tg : RenderTarget) (p : t) : t :=
  mk (renderables p) tg (layers p).

(** Modelled from the spec: [set_renderables] of [render_pass.cpp]
    replaces the whole sequence, treated as a single layer at the default
    priority; the previous layer structure is dropped. *)
Definition set_renderables (rs : list Renderable) (p : t) : t :=
  mk rs (target p) [mkLayer LAYER_PRIORITY_MAX (List.length rs)].

(** Modelled from the spec: the position a priority belongs to in
    [layers] (kept in descending order): the index of the first layer
    whose priority is not above it, together with the number of
    renderables in the layers before that index. *)
Fixpoint locate (prio : Z) (ls : list Layer) : nat * nat :=
  match ls with
  | [] => (0%nat, 0%nat)
  | l :: ls' =>
    if prio <? priority l
    then let '(i, off) := locate prio ls' in (S i, (length l + off)%nat)
    else (0%nat, 0%nat)
  end.

(** Modelled from the spec: the private [add_layer(index, priority)] of
    [render_pass.cpp] inserts an empty layer at [index]. *)
Definition add_layer_at (index : nat) (prio : Z) (p : t) : t :=
  mk (renderables p) (target p)
     (take index (layers p) ++ mkLayer prio 0 :: drop index (layers p)).

(** Modelled from the spec: [add_layer(priority)] of [render_pass.cpp]
    creates an empty layer if none has this priority and does nothing
    otherwise. *)
Definition add_layer (prio : Z) (p : t) : t :=
  let '(i, _) := locate prio (layers p) in
  match layers p !! i with
  | Some l => if priority l =? prio then p else add_layer_at i prio p
  | None => add_layer_at i prio p
  end.

(** A block of renderables spliced into the sequence at [pos]. *)
Definition splice (pos : nat) (block rs : list Renderable) : list Renderable :=
  take pos rs ++ block ++ drop pos rs.

(** Modelled from the spec: [add_renderables(list, priority)] of
    [render_pass.cpp]. If a layer with exactly this priority exists, the
    block is appended to the end of that layer's span and the layer's
    length grows; otherwise a new layer holding the block is inserted at
    the position that keeps [layers] in descending order. *)
Definition add_renderables (block : list Renderable) (prio : Z) (p : t) : t :=
  let '(i, off) := locate prio (layers p) in
  let grow (l : Layer) :=
    mk (splice (off + length l) block (renderables p))
       (target p)
       (<[i := mkLayer (priority l) (length l + List.length block)]> (layers p)) in
  let fresh :=
    mk (splice off block (renderables p))
       (target p)
       (take i (layers p) ++ mkLayer prio (List.length block) :: drop i (layers p)) in
  match layers p !! i with
  | Some l => if priority l =? prio then grow l else fresh
  | None => fresh
  end.

(** Modelled from the spec: the single-renderable overload is the
    convenience form of the list one. *)
Definition add_renderable (r : Renderable) (prio : Z) (p : t) : t :=
  add_renderables [r] prio p.

(** Modelled from the spec: [clear_renderables] of [render_pass.cpp]
    empties [renderables] and [layers] and keeps the target. *)
Definition clear_renderables (p : t) : t :=
  mk [] (target p) [].

(** Modelled from the spec: the constructor of [render_pass.cpp] stores
    the target and takes the initial renderables at the default priority. *)
Definition create (rs : list Renderable) (tg : RenderTarget) : t :=
  add_renderables rs LAYER_PRIORITY_MAX (mk [] tg []).

(** One call on the mutation surface used to fill a pass. *)
Inductive call :=
| AddRenderables (block : list Renderable) (prio : Z)
| AddRenderable (r : Renderable) (prio : Z).

Definition apply_call (p : t) (c : call) : t :=
  match c with
  | AddRenderables block prio => add_renderables block prio p
  | AddRenderable r prio => add_renderable r prio p
  end.

Definition apply_calls (p : t) (cs : list call) : t :=
  fold_left apply_call cs p.

(** The layer invariant of the spec. *)
Definition strictly_descending (ls : list Layer) : Prop :=
  StronglySorted (fun a b => priority a > priority b) ls.

(** [sum(layer.length for all layers)]. *)
Fixpoint total_length (ls : list Layer) : nat :=
  match ls with
  | [] => 0%nat
  | l :: ls' => (length l + total_length ls')%nat
  end.

Definition invariant (p : t) : Prop :=
  strictly_descending (get_layers p)
  /\ NoDup (map priority (get_layers p))
  /\ total_length (get_layers p) = List.length (get_renderables p).

End RenderPass.

(** ** The OpenGL backend: [GlRenderPass] and the effects of [GlRenderer] *)

Module Gl.

(** Enumerants of the OpenGL headers used by [render]. *)
Definition GL_COLOR_BUFFER_BIT : Z := 0x4000.
Definition GL_DEPTH_BUFFER_BIT : Z := 0x0100.
Definition GL_BLEND : Z := 0x0BE2.
Definition GL_DEPTH_TEST : Z := 0x0B71.

(** [GlRenderPass] extends [RenderPass] by the optimisation flag. *)
Record GlRenderPass := mkGlPass {
  base : RenderPass.t;
  is_optimised : bool;
}.

(** What reaches the graphics API, in the order it is issued. *)
Inductive GlCall :=
| BindWrite (tg : RenderTarget)
| Clear (mask : Z)
| Enable (cap : Z)
| Disable (cap : Z)
| UpdateUniforms (prog : GlShaderProgram) (input : GlUniformInput)
| Draw (geom : GlGeometry).

(** The state [optimise] and [render] run on: the pass behind the shared
    pointer and the calls issued to the graphics API so far. *)
Record World := mkWorld {
  pass : GlRenderPass;
  calls : list GlCall;
}.

(** State monad over [World]. *)
Definition M (A : Type) : Type := World -> A * World.

Definition ret {A} (a : A) : M A := fun w => (a, w).

Definition bind {A B} (m : M A) (k : A -> M B) : M B :=
  fun w => let '(a, w') := m w in k a w'.

Definition exec {A} (m : M A) (w : World) : World := snd (m w).

Declare Scope gl_scope.
Delimit Scope gl_scope with gl.
Notation "'let*' x ':=' m 'in' k" := (bind m (fun x => k))
  (at level 10, x name, m at level 99, k at level 200) : gl_scope.
Notation "m '>>' k" := (bind m (fun _ => k))
  (at level 100, k at level 200, right associativity) : gl_scope.

Local Open Scope gl_scope.

(** Reading and writing the pass. *)
Definition reads {A} (f : GlRenderPass -> A) : M A :=
  fun w => (f (pass w), w).

Definition writes (f : GlRenderPass -> GlRenderPass) : M unit :=
  fun w => (tt, mkWorld (f (pass w)) (calls w)).

(** Issuing one call to the graphics API. *)
Definition issue (c : GlCall) : M unit :=
  fun w => (tt, mkWorld (pass w) (calls w ++ [c])).

(** The pass accessors, reached through the pointer. *)
Definition get_renderables : M (list Renderable) :=
  reads (fun p => RenderPass.get_renderables (base p)).

Definition get_target : M RenderTarget :=
  reads (fun p => RenderPass.get_target (base p)).

(** Modelled from the spec: [GlRenderPass] is declared in
    [renderer/opengl/render_pass.h], which is outside the files embedded here; a
    flag records that optimisation ran, and [get_is_optimised] reads it. *)
Definition get_is_optimised : M bool := reads is_optimised.

(** Modelled from the spec: [set_is_optimised] of the missing
    [GlRenderPass] stores the flag. *)
Definition set_is_optimised (flag : bool) : M unit :=
  writes (fun p => mkGlPass (base p) flag).

(** Modelled from the spec: [set_renderables] replaces the sequence of
    the pass; resetting the flag is left to the caller. *)
Definition set_renderables (rs : list Renderable) : M unit :=
  writes (fun p => mkGlPass (RenderPass.set_renderables rs (base p)) (is_optimised p)).

(** [RenderPass::add_renderables] called on a [GlRenderPass]: the
    inherited member works on the base part and cannot reach the flag. *)
Definition add_renderables (block : list Renderable) (prio : Z) : M unit :=
  writes (fun p => mkGlPass (RenderPass.add_renderables block prio (base p)) (is_optimised p)).

(** The graphics API entry points used by [render]. *)
Definition bind_write (tg : RenderTarget) : M unit := issue (BindWrite tg).
Definition glClear (mask : Z) : M unit := issue (Clear mask).
Definition glEnable (cap : Z) : M unit := issue (Enable cap).
Definition glDisable (cap : Z) : M unit := issue (Disable cap).
Definition update_uniforms (prog : GlShaderProgram) (input : GlUniformInput) : M unit :=
  issue (UpdateUniforms prog input).
Definition draw (geom : GlGeometry) : M unit := issue (Draw geom).

(** A range-based [for] loop. *)
Fixpoint for_each {A} (l : list A) (body : A -> M unit) : M unit :=
  match l with
  | [] => ret tt
  | x :: l' => body x >> for_each l' body
  end.

(** The comparator lambda of [optimise]: [shader_a < shader_b]. *)
Definition shader_less (a b : Renderable) : bool :=
  let shader_a := get_handle (get_program (uniform a)) in
  let shader_b := get_handle (get_program (uniform b)) in
  shader_a <? shader_b.

(** [GlRenderer::optimise]. *)
Definition optimise : M unit :=
  let* optimised := get_is_optimised in
  if negb optimised then
    let* renderables := get_renderables in
    let renderables := stable_sort shader_less renderables in
    set_renderables renderables >>
    set_is_optimised true
  else ret tt.

(** The body of the loop of [render], for one renderable. *)
Definition render_renderable (obj : Renderable) : M unit :=
  (if alpha_blending obj then glEnable GL_BLEND else glDisable GL_BLEND) >>
  (if depth_test obj then glEnable GL_DEPTH_TEST else glDisable GL_DEPTH_TEST) >>
  let in_ := uniform obj in
  let program := get_program in_ in
  update_uniforms program in_ >>
  match geometry obj with
  | Some geom => draw geom
  | None => ret tt
  end.

(** [GlRenderer::render]. *)
Definition render : M unit :=
  let* gl_target := get_target in
  bind_write gl_target >>
  glClear (Z.lor GL_COLOR_BUFFER_BIT GL_DEPTH_BUFFER_BIT) >>
  let* renderables := get_renderables in
  for_each renderables render_renderable.

(** The calls the spec lists for one renderable (steps 3a to 3d). *)
Definition blend_call (obj : Renderable) : GlCall :=
  if alpha_blending obj then Enable GL_BLEND else Disable GL_BLEND.

Definition depth_call (obj : Renderable) : GlCall :=
  if depth_test obj then Enable GL_DEPTH_TEST else Disable GL_DEPTH_TEST.

Definition bind_call (obj : Renderable) : GlCall :=
  UpdateUniforms (get_program (uniform obj)) (uniform obj).

Definition draw_calls (obj : Renderable) : list GlCall :=
  match geometry obj with
  | Some geom => [Draw geom]
  | None => []
  end.

Definition spec_calls (obj : Renderable) : list GlCall :=
  blend_call obj :: depth_call obj :: bind_call obj :: draw_calls obj.

Definition is_draw (c : GlCall) : bool :=
  match c with Draw _ => true | _ => false end.

(** The handle a renderable is sorted by. *)
Definition shader_of (obj : Renderable) : Z :=
  get_handle (get_program (uniform obj)).

Definition bound_to (h : Z) (obj : Renderable) : bool :=
  shader_of obj =? h.

(** A pass that is flagged as optimised while its sequence is not in
    shader order: created empty, optimised, then given a renderable bound
    to program 2 and one bound to program 1. *)
Definition on_program (id : nat) (h : Z) : Renderable :=
  mkRenderable (mkUniformInput id (mkProgram h)) (Some (mkGeometry id)) true true.

Definition fresh_world (rs : list Renderable) : World :=
  mkWorld (mkGlPass (RenderPass.create rs (mkTarget 0)) false) [].

Definition flagged_world : World :=
  exec (optimise >>
        add_renderables [on_program 1 2] 5 >>
        add_renderables [on_program 2 1] 5)
       (fresh_world []).

End Gl.

(** ** Reading the uniform layout and the log of calls *)

Module Observe.

(** The bytes the inputs take without any padding. *)
Fixpoint sum_sizes {ubo_input_t layout_t : Type}
    (get_size : UniformLayout.UniformBufferInput ubo_input_t -> layout_t -> Z)
    (layout : layout_t)
    (inputs : list (UniformLayout.UniformBufferInput ubo_input_t)) : Z :=
  match inputs with
  | [] => 0
  | input :: rest => get_size input layout + sum_sizes get_size layout rest
  end.

(** The handles of the programs bound by the calls of a log, in order. *)
Fixpoint bound_programs (cs : list Gl.GlCall) : list Z :=
  match cs with
  | [] => []
  | Gl.UpdateUniforms prog _ :: cs' => get_handle prog :: bound_programs cs'
  | _ :: cs' => bound_programs cs'
  end.

End Observe.

(** ** [GlRenderer::create_texture_target] *)

Module TextureTarget.

Record GlTexture2d := mkGlTexture { texture_id : nat }.

(** What a [std::shared_ptr<Texture2d>] points to: a texture of the OpenGL
    backend or one of another implementation; [None] is the null pointer. *)
Inductive Texture2d :=
| OfGl (tex : GlTexture2d)
| OfOther (id : nat).

(** [std::dynamic_pointer_cast<GlTexture2d>]: null unless the pointee is a
    [GlTexture2d]. *)
Definition dynamic_pointer_cast (tex : option Texture2d) : option GlTexture2d :=
  match tex with
  | Some (OfGl t) => Some t
  | Some (OfOther _) => None
  | None => None
  end.

(** [std::vector::push_back]. *)
Definition push_back {A} (v : list A) (x : A) : list A := v ++ [x].

(** The loop of [create_texture_target]; the result is the vector
    [gl_textures] handed to the [GlRenderTarget] constructor. *)
Definition create_texture_target (textures : list (option Texture2d))
    : list (option GlTexture2d) :=
  fold_left (fun gl_textures tex => push_back gl_textures (dynamic_pointer_cast tex))
            textures [].

End TextureTarget.

(** ** [SpawnEntityHandler::invoke] from [gamestate/event/spawn_entity.cpp] *)

Module SpawnEntity.

(** The function-local [static std::vector<nyan::fqon_t> test_entities]. *)
Definition test_entities : list string :=
  ["aoe1_base.data.game_entity.generic.chariot_archer.chariot_archer.ChariotArcher";
   "aoe1_base.data.game_entity.generic.bowman.bowman.Bowman";
   "aoe1_base.data.game_entity.generic.hoplite.hoplite.Hoplite";
   "aoe1_base.data.game_entity.generic.temple.temple.Temple";
   "aoe1_base.data.game_entity.generic.academy.academy.Academy"].

(** What [invoke] carries from one call to the next: the function-local
    [static uint8_t index], and the object names it has handed to
    [factory->add_game_entity], one entity being created, pushed to the
    renderer and added to the game state for each. *)
Record state := mkState {
  index : Z;
  spawned : list string;
}.

(** The state before the first call: [static uint8_t index = 0]. *)
Definition initial : state := mkState 0 [].

(** [++index] on [uint8_t]. *)
Definition incr_uint8 (i : Z) : Z := (i + 1) mod 2 ^ 8.

(** One call of [invoke]; [None] is the [std::out_of_range] thrown by
    [test_entities.at(index)]. *)
Definition invoke (st : state) : option state :=
  match test_entities !! Z.to_nat (index st) with
  | None => None
  | Some nyan_entity =>
    let index := incr_uint8 (index st) in
    let index :=
      if Z.of_nat (List.length test_entities) <=? index then 0 else index in
    Some (mkState index (spawned st ++ [nyan_entity]))
  end.

(** [n] calls in a row. *)
Fixpoint invoke_n (n : nat) (st : state) : option state :=
  match n with
  | O => Some st
  | S n' =>
    match invoke st with
    | None => None
    | Some st' => invoke_n n' st'
    end
  end.

(** [Spawner::id] and [Spawner::idstr]. *)
Definition id : Z := 0.
Definition idstr : string := "spawner".

End SpawnEntity.

(** * Properties *)

(** ** [size_t] *)

Lemma wrap_small z : 0 <= z < SizeT.modulus -> SizeT.wrap z = z.
Proof. intros H. unfold SizeT.wrap. now apply Z.mod_small. Qed.

Lemma wrap_range z : 0 <= SizeT.wrap z < SizeT.modulus.
Proof. unfold SizeT.wrap. apply Z.mod_pos_bound. reflexivity. Qed.

(** ** Uniform buffer layout *)

Section layout_facts.

Import UniformLayout.

Context {ubo_input_t gl_ubo_t layout_t : Type}.
Variable GL_UBO_INPUT_TYPE : ubo_input_t -> gl_ubo_t.
Variable get_size : UniformBufferInput ubo_input_t -> layout_t -> Z.
Variable get_stride_size : ubo_input_t -> layout_t -> Z.

Local Abbreviation body := (loop_body GL_UBO_INPUT_TYPE get_size get_stride_size).

(** A zero-sized input stops the loop: [offset % size] has no value. *)
Lemma loop_body_zero_size layout offset us input :
  get_size input layout = 0 -> body layout (offset, us) input = None.
Proof.
  intros Hz. unfold loop_body, SizeT.rem. rewrite Hz.
  destruct (decide (0 = 0)); congruence.
Qed.

(** One iteration: a fresh name is recorded at [assigned_offset], and the
    running offset moves past the input. *)
Lemma loop_body_fresh layout offset us input :
  get_size input layout <> 0 ->
  us !! name input = None ->
  exists us',
    body layout (offset, us) input
      = Some (SizeT.add (assigned_offset offset (get_size input layout))
                        (get_size input layout), us')
    /\ u_offset <$> us' !! name input
       = Some (assigned_offset offset (get_size input layout)).
Proof.
  intros Hnz Hfresh. unfold loop_body, SizeT.rem.
  destruct (decide (get_size input layout = 0)) as [E|_]; [contradiction|].
  eexists. split; [reflexivity|].
  unfold emplace. rewrite Hfresh. now rewrite lookup_insert_eq.
Qed.

End layout_facts.

(** What [offset += offset % size] leaves as remainder: twice the old one. *)
Lemma assigned_offset_mod prev_end size :
  0 < size -> 0 <= prev_end -> prev_end + size <= SizeT.modulus ->
  UniformLayout.assigned_offset prev_end size mod size
    = (2 * (prev_end mod size)) mod size.
Proof.
  intros Hs Hp Hb. unfold UniformLayout.assigned_offset, SizeT.add.
  assert (Hr : 0 <= prev_end mod size < size) by (apply Z.mod_pos_bound; lia).
  rewrite wrap_small by lia.
  rewrite Z.add_mod by lia. rewrite Z.mod_mod by lia.
  f_equal. lia.
Qed.

(** The rule of the spec does give a multiple of the size. *)
Lemma aligned_offset_multiple prev_end size :
  0 < size -> UniformLayout.aligned_offset prev_end size mod size = 0.
Proof.
  intros Hs. unfold UniformLayout.aligned_offset. apply Z.mod_mul. lia.
Qed.

Lemma aligned_offset_least prev_end size :
  0 < size ->
  prev_end <= UniformLayout.aligned_offset prev_end size < prev_end + size.
Proof.
  intros Hs. unfold UniformLayout.aligned_offset.
  pose proof (Z.div_mod (prev_end + size - 1) size ltac:(lia)) as Hdm.
  pose proof (Z.mod_pos_bound (prev_end + size - 1) size Hs) as Hb.
  lia.
Qed.

(** C1. On the inputs [[vec4 a, float b, vec4 c]] under the standard packed
    convention [add_uniform_buffer] succeeds and places [a] at offset 0 and
    [b] at offset 16, but [c] at offset 24: after the float the running
    offset is 20, and [offset += offset % size] adds [20 % 16 = 4]. The
    layout rule asks for 32, the next multiple of 16; 24 is not a multiple
    of 16. Whatever the type table, the stride helper and the reported total
    size are, the offsets come out this way. *)
Theorem add_uniform_buffer_vec4_float_vec4 :
  forall (gl_ubo_t : Type) (GL_UBO_INPUT_TYPE : UniformLayout.ubo_input_t -> gl_ubo_t)
         (get_stride_size : UniformLayout.ubo_input_t -> UniformLayout.ubo_layout_t -> Z)
         (total : Z),
  exists buf,
    UniformLayout.add_uniform_buffer GL_UBO_INPUT_TYPE
        UniformLayout.std140_get_size get_stride_size
        (UniformLayout.mkInfo UniformLayout.vec4_float_vec4 UniformLayout.STD140 total)
      = Some buf
    /\ UniformLayout.u_offset <$> UniformLayout.uniforms buf !! "a" = Some 0
    /\ UniformLayout.u_offset <$> UniformLayout.uniforms buf !! "b" = Some 16
    /\ UniformLayout.u_offset <$> UniformLayout.uniforms buf !! "c" = Some 24
    /\ UniformLayout.aligned_offset 20 16 = 32
    /\ 24 mod 16 <> 0.
Proof.
  intros gl_ubo_t GL_UBO_INPUT_TYPE get_stride_size total.
  eexists. split; [reflexivity|].
  repeat split; try reflexivity.
  intros H. discriminate H.
Qed.

(** ** [std::stable_sort] by an integer key *)

Section stable_sort_facts.

Context {A : Type}.
Variable key : A -> Z.

Let comp (a b : A) : bool := key a <? key b.
Let keyed (h : Z) (a : A) : bool := key a =? h.
Let key_le (a b : A) : Prop := key a <= key b.

Lemma stable_insert_perm x l : Permutation (stable_insert comp x l) (x :: l).
Proof.
  induction l as [|y l IH]; simpl; [reflexivity|].
  destruct (comp y x); [|reflexivity].
  rewrite IH. apply perm_swap.
Qed.

Lemma stable_sort_perm l : Permutation (stable_sort comp l) l.
Proof.
  induction l as [|x l IH]; simpl; [reflexivity|].
  rewrite stable_insert_perm. now constructor.
Qed.

Lemma stable_insert_sorted x l :
  StronglySorted key_le l -> StronglySorted key_le (stable_insert comp x l).
Proof.
  induction 1 as [|y l Hs IH Hall]; simpl.
  - repeat constructor.
  - unfold comp at 1. destruct (Z.ltb_spec (key y) (key x)) as [Hlt|Hge].
    + constructor; [exact IH|].
      eapply Permutation_Forall; [symmetry; apply stable_insert_perm|].
      constructor; [unfold key_le; lia | exact Hall].
    + constructor; [now constructor|].
      constructor; [exact Hge|].
      eapply List.Forall_impl; [|exact Hall].
      intros a Ha. unfold key_le in *. lia.
Qed.

Lemma stable_sort_sorted l : StronglySorted key_le (stable_sort comp l).
Proof.
  induction l as [|x l IH]; simpl; [constructor|].
  now apply stable_insert_sorted.
Qed.

(** Inserting does not disturb the order among the elements of one key. *)
Lemma stable_insert_filter h x l :
  List.filter (keyed h) (stable_insert comp x l) = List.filter (keyed h) (x :: l).
Proof.
  induction l as [|y l IH]; [reflexivity|].
  cbn [stable_insert]. unfold comp at 1.
  destruct (Z.ltb_spec (key y) (key x)) as [Hlt|Hge]; [|reflexivity].
  cbn [List.filter] in *. rewrite IH. unfold keyed.
  destruct (Z.eqb_spec (key y) h), (Z.eqb_spec (key x) h); try reflexivity.
  lia.
Qed.

Lemma stable_sort_filter h l :
  List.filter (keyed h) (stable_sort comp l) = List.filter (keyed h) l.
Proof.
  induction l as [|x l IH]; [reflexivity|].
  cbn [stable_sort]. rewrite stable_insert_filter.
  cbn [List.filter]. now rewrite IH.
Qed.

Lemma filter_above_nil h l :
  Forall (fun a => h < key a) l -> List.filter (keyed h) l = [].
Proof.
  induction 1 as [|a l Ha _ IH]; [reflexivity|].
  cbn [List.filter]. unfold keyed at 1.
  destruct (Z.eqb_spec (key a) h); [lia | exact IH].
Qed.

Lemma keyed_refl a : keyed (key a) a = true.
Proof. unfold keyed. apply Z.eqb_refl. Qed.

(** A key-ordered list is determined by its per-key subsequences: there is
    one stable arrangement only. *)
Lemma stable_arrangement_unique l1 :
  forall l2,
    StronglySorted key_le l1 -> StronglySorted key_le l2 ->
    (forall h, List.filter (keyed h) l1 = List.filter (keyed h) l2) ->
    l1 = l2.
Proof.
  assert (Hhead : forall x l y l',
    StronglySorted key_le (x :: l) -> StronglySorted key_le (y :: l') ->
    (forall h, List.filter (keyed h) (x :: l) = List.filter (keyed h) (y :: l')) ->
    key x <= key y).
  { intros x l y l' Hx Hy Hf.
    destruct (Z.le_gt_cases (key x) (key y)) as [|Hgt]; [assumption|].
    exfalso. specialize (Hf (key y)).
    rewrite (filter_above_nil (key y) (x :: l)) in Hf.
    - cbn [List.filter] in Hf. rewrite keyed_refl in Hf. discriminate.
    - apply StronglySorted_inv in Hx as [_ Hall].
      constructor; [lia|].
      eapply List.Forall_impl; [|exact Hall]. unfold key_le. intros; lia. }
  induction l1 as [|x l1 IH]; intros [|y l2] H1 H2 Hf.
  - reflexivity.
  - specialize (Hf (key y)). cbn [List.filter] in Hf.
    rewrite keyed_refl in Hf. discriminate.
  - specialize (Hf (key x)). cbn [List.filter] in Hf.
    rewrite keyed_refl in Hf. discriminate.
  - assert (Hk : key x = key y).
    { apply Z.le_antisymm.
      - exact (Hhead x l1 y l2 H1 H2 Hf).
      - apply (Hhead y l2 x l1 H2 H1). intros h. symmetry. apply Hf. }
    assert (Hxy : x = y).
    { specialize (Hf (key x)). cbn [List.filter] in Hf.
      rewrite keyed_refl in Hf. rewrite Hk, keyed_refl in Hf. congruence. }
    subst y. f_equal.
    apply IH.
    + now apply StronglySorted_inv in H1.
    + now apply StronglySorted_inv in H2.
    + intros h. specialize (Hf h). cbn [List.filter] in Hf.
      destruct (keyed h x); congruence.
Qed.

Lemma stable_sort_unique l l' :
  StronglySorted key_le l' ->
  (forall h, List.filter (keyed h) l' = List.filter (keyed h) l) ->
  l' = stable_sort comp l.
Proof.
  intros Hs Hf. apply stable_arrangement_unique.
  - exact Hs.
  - apply stable_sort_sorted.
  - intros h. rewrite stable_sort_filter. apply Hf.
Qed.

(** Sorting a list that is already ordered changes nothing. *)
Lemma stable_sort_sorted_id l :
  StronglySorted key_le l -> stable_sort comp l = l.
Proof.
  intros Hs. symmetry. now apply stable_sort_unique.
Qed.

End stable_sort_facts.

(** ** Render passes: the layer structure *)

Section render_pass_facts.

Import RenderPass.

Lemma splice_length pos block rs :
  List.length (splice pos block rs) = (List.length rs + List.length block)%nat.
Proof.
  unfold splice. rewrite !List.length_app.
  rewrite <- (take_drop pos rs) at 3. rewrite List.length_app. lia.
Qed.

(** The layers after [add_renderables], read off the first layer. *)
Lemma add_renderables_layers_cons block prio rs rs' tg l0 ls :
  layers (add_renderables block prio (mk rs tg (l0 :: ls)))
  = if prio <? priority l0
    then l0 :: layers (add_renderables block prio (mk rs' tg ls))
    else if priority l0 =? prio
         then mkLayer (priority l0) (length l0 + List.length block) :: ls
         else mkLayer prio (List.length block) :: l0 :: ls.
Proof.
  unfold add_renderables. cbn [layers locate renderables target].
  destruct (prio <? priority l0).
  - destruct (locate prio ls) as [i off]. cbn.
    destruct (ls !! i) as [l|]; [|reflexivity].
    destruct (priority l =? prio); reflexivity.
  - cbn. destruct (priority l0 =? prio); reflexivity.
Qed.

Lemma add_renderables_layers_nil block prio rs tg :
  layers (add_renderables block prio (mk rs tg []))
  = [mkLayer prio (List.length block)].
Proof. reflexivity. Qed.

Lemma add_renderables_length block prio p :
  List.length (renderables (add_renderables block prio p))
  = (List.length (renderables p) + List.length block)%nat.
Proof.
  unfold add_renderables. destruct (locate prio (layers p)) as [i off].
  destruct (layers p !! i) as [l|]; [destruct (priority l =? prio)|];
    cbn [renderables]; apply splice_length.
Qed.

Lemma add_renderables_target block prio p :
  target (add_renderables block prio p) = target p.
Proof.
  unfold add_renderables. destruct (locate prio (layers p)) as [i off].
  destruct (layers p !! i) as [l|]; [destruct (priority l =? prio)|];
    reflexivity.
Qed.

(** Every priority among the new layers is an old one or the given one. *)
Lemma add_renderables_layers_Forall (Q : Z -> Prop) block prio rs tg ls :
  Q prio ->
  Forall (fun l => Q (priority l)) ls ->
  Forall (fun l => Q (priority l)) (layers (add_renderables block prio (mk rs tg ls))).
Proof.
  intros Hq. induction 1 as [|l0 ls H0 Hall IH].
  - rewrite add_renderables_layers_nil. repeat constructor. exact Hq.
  - rewrite (add_renderables_layers_cons block prio rs rs tg l0 ls).
    destruct (prio <? priority l0); [|destruct (priority l0 =? prio)];
      repeat constructor; assumption.
Qed.

Lemma add_renderables_sorted block prio rs tg ls :
  strictly_descending ls ->
  strictly_descending (layers (add_renderables block prio (mk rs tg ls))).
Proof.
  unfold strictly_descending.
  induction 1 as [|l0 ls Hs IH Hall].
  - rewrite add_renderables_layers_nil. repeat constructor.
  - rewrite (add_renderables_layers_cons block prio rs rs tg l0 ls).
    destruct (Z.ltb_spec prio (priority l0)) as [Hlt|Hge];
      [|destruct (Z.eqb_spec (priority l0) prio) as [Heq|Hne]].
    + constructor; [exact IH|].
      apply (add_renderables_layers_Forall (fun z => priority l0 > z)); [cbn beta; lia|exact Hall].
    + constructor; [exact Hs|exact Hall].
    + constructor; [now constructor|].
      constructor; [cbn; lia|].
      eapply List.Forall_impl; [|exact Hall]. cbn. intros; lia.
Qed.

Lemma add_renderables_total_length block prio rs tg ls :
  total_length (layers (add_renderables block prio (mk rs tg ls)))
  = (total_length ls + List.length block)%nat.
Proof.
  induction ls as [|l0 ls IH].
  - rewrite add_renderables_layers_nil. cbn. lia.
  - rewrite (add_renderables_layers_cons block prio rs rs tg l0 ls).
    destruct (prio <? priority l0); [|destruct (priority l0 =? prio)];
      cbn [total_length length]; lia.
Qed.

Lemma strictly_descending_NoDup ls :
  strictly_descending ls -> NoDup (map priority ls).
Proof.
  induction 1 as [|l0 ls Hs IH Hall]; cbn [map]; constructor; [|exact IH].
  intros Hin. apply list_elem_of_In, in_map_iff in Hin as (l & Heq & Hl).
  rewrite List.Forall_forall in Hall. specialize (Hall l Hl). lia.
Qed.

(** [add_renderables] keeps the layer invariant. *)
Lemma add_renderables_invariant block prio p :
  invariant p -> invariant (add_renderables block prio p).
Proof.
  destruct p as [rs tg ls]. unfold invariant, get_layers, get_renderables.
  cbn [layers renderables]. intros (Hs & _ & Hlen).
  assert (Hs' := add_renderables_sorted block prio rs tg ls Hs).
  split; [exact Hs'|]. split; [now apply strictly_descending_NoDup|].
  rewrite add_renderables_total_length, add_renderables_length.
  cbn [renderables]. lia.
Qed.

Lemma apply_call_invariant p c : invariant p -> invariant (apply_call p c).
Proof. destruct c; apply add_renderables_invariant. Qed.

Lemma apply_calls_invariant cs :
  forall p, invariant p -> invariant (apply_calls p cs).
Proof.
  unfold apply_calls.
  induction cs as [|c cs IH]; intros p Hp; [exact Hp|].
  cbn [fold_left]. apply IH. now apply apply_call_invariant.
Qed.

Lemma empty_invariant tg : invariant (mk [] tg []).
Proof. repeat split; constructor. Qed.

Lemma create_invariant rs tg : invariant (create rs tg).
Proof. apply add_renderables_invariant, empty_invariant. Qed.

Lemma clear_renderables_invariant p : invariant (clear_renderables p).
Proof. apply empty_invariant. Qed.

Lemma set_renderables_invariant rs p : invariant (set_renderables rs p).
Proof.
  unfold invariant, set_renderables, get_layers, get_renderables; cbn.
  split; [repeat constructor|]. split; [|lia].
  repeat constructor. intros H. inversion H.
Qed.

End render_pass_facts.

(** C2. Whatever renderables and target a pass is created with, after any
    sequence of [add_renderables] calls (of either overload, with arbitrary
    priorities) the layers are in strictly descending priority order, no
    priority occurs twice, and the layer lengths add up to the number of
    renderables in the pass. *)
Theorem add_renderables_layers_sorted_and_counted :
  forall (rs0 : list Renderable) (tg : RenderTarget) (cs : list RenderPass.call),
    let p := RenderPass.apply_calls (RenderPass.create rs0 tg) cs in
    StronglySorted (fun a b => priority a > priority b) (RenderPass.get_layers p)
    /\ NoDup (map priority (RenderPass.get_layers p))
    /\ RenderPass.total_length (RenderPass.get_layers p)
       = List.length (RenderPass.get_renderables p).
Proof.
  intros rs0 tg cs p.
  exact (apply_calls_invariant cs _ (create_invariant rs0 tg)).
Qed.

(** C7. A pass created empty, then given [r1] at priority 5 and [r2] at
    priority 10, stores [[r2; r1]]: the priority-10 layer precedes the
    priority-5 layer. *)
Theorem add_renderables_priority_order :
  forall (r1 r2 : Renderable) (tg : RenderTarget),
    let p := RenderPass.add_renderable r2 10
               (RenderPass.add_renderable r1 5 (RenderPass.create [] tg)) in
    RenderPass.get_renderables p = [r2; r1]
    /\ List.filter (fun l => negb (Nat.eqb (length l) 0)) (RenderPass.get_layers p)
       = [mkLayer 10 1; mkLayer 5 1].
Proof. intros r1 r2 tg. split; reflexivity. Qed.

(** C8. After [clear_renderables] the pass has no renderables and no
    layers, and its target is the one it had before. *)
Theorem clear_renderables_empties_keeps_target :
  forall p : RenderPass.t,
    RenderPass.get_renderables (RenderPass.clear_renderables p) = []
    /\ RenderPass.get_layers (RenderPass.clear_renderables p) = []
    /\ RenderPass.get_target (RenderPass.clear_renderables p) = RenderPass.get_target p.
Proof. intros p. repeat split. Qed.

(** ** The state monad *)

Section monad_facts.

Import Gl.
Local Open Scope gl_scope.

Lemma exec_ret {A} (a : A) w : exec (ret a) w = w.
Proof. reflexivity. Qed.

Lemma exec_seq {A B} (m : M A) (k : M B) w :
  exec (m >> k) w = exec k (exec m w).
Proof. unfold exec, bind. destruct (m w) as [a w']. reflexivity. Qed.

Lemma exec_reads {A B} (f : GlRenderPass -> A) (k : A -> M B) w :
  exec (let* x := reads f in k x) w = exec (k (f (pass w))) w.
Proof. reflexivity. Qed.

Lemma exec_issue c w : exec (issue c) w = mkWorld (pass w) (calls w ++ [c]).
Proof. reflexivity. Qed.

Lemma exec_writes f w : exec (writes f) w = mkWorld (f (pass w)) (calls w).
Proof. reflexivity. Qed.

End monad_facts.

(** ** [render] *)

Section render_facts.

Import Gl.
Local Open Scope gl_scope.

(** One pass through the loop body issues the calls of steps 3a to 3d and
    leaves the pass alone. *)
Lemma render_renderable_exec obj w :
  exec (render_renderable obj) w = mkWorld (pass w) (calls w ++ spec_calls obj).
Proof.
  unfold render_renderable, spec_calls, blend_call, depth_call, bind_call,
    draw_calls, glEnable, glDisable, update_uniforms, draw.
  rewrite !exec_seq.
  destruct (alpha_blending obj), (depth_test obj), (geometry obj);
    rewrite ?exec_issue, ?exec_ret; cbn [pass calls];
    rewrite <- ?app_assoc; reflexivity.
Qed.

Lemma for_each_render_exec rs :
  forall w,
    exec (for_each rs render_renderable) w
    = mkWorld (pass w) (calls w ++ flat_map spec_calls rs).
Proof.
  induction rs as [|obj rs IH]; intros w; cbn [for_each flat_map].
  - rewrite exec_ret, app_nil_r. now destruct w.
  - rewrite exec_seq, IH, render_renderable_exec. cbn [pass calls].
    now rewrite <- app_assoc.
Qed.

Lemma render_exec w :
  exec render w
  = mkWorld (pass w)
      (calls w ++ BindWrite (RenderPass.get_target (base (pass w)))
               :: Clear (Z.lor GL_COLOR_BUFFER_BIT GL_DEPTH_BUFFER_BIT)
               :: flat_map spec_calls (RenderPass.get_renderables (base (pass w)))).
Proof.
  unfold render, get_target, get_renderables, bind_write, glClear.
  rewrite exec_reads, exec_seq, exec_seq, exec_reads.
  rewrite for_each_render_exec, !exec_issue. cbn [pass calls].
  now rewrite <- !app_assoc.
Qed.

(** Among the calls of one renderable, the draws are those of its
    geometry. *)
Lemma spec_calls_draws rs :
  List.filter is_draw (flat_map spec_calls rs) = flat_map draw_calls rs.
Proof.
  induction rs as [|obj rs IH]; [reflexivity|].
  cbn [flat_map]. rewrite List.filter_app, IH. f_equal.
  unfold spec_calls, blend_call, depth_call, bind_call, draw_calls.
  destruct (alpha_blending obj), (depth_test obj), (geometry obj); reflexivity.
Qed.

End render_facts.

(** C5. [render] binds the target of the pass for writing, clears with the
    color and the depth bit set, and then walks the renderables in their
    stored order: for each one it enables blending when [alpha_blending] is
    set and disables it otherwise, does the same for depth testing with
    [depth_test], and binds the uniform input to its shader program; the
    draw calls issued are those of the renderables that have a geometry, in
    the same order. On a pass without renderables the bind and the clear are
    the only calls. *)
Theorem render_binds_clears_walks_in_order :
  forall w : Gl.World,
    let p := Gl.base (Gl.pass w) in
    let mask := Z.lor Gl.GL_COLOR_BUFFER_BIT Gl.GL_DEPTH_BUFFER_BIT in
    Gl.calls (Gl.exec Gl.render w)
      = Gl.calls w
        ++ Gl.BindWrite (RenderPass.get_target p)
        :: Gl.Clear mask
        :: flat_map
             (fun obj =>
                (if alpha_blending obj
                 then Gl.Enable Gl.GL_BLEND else Gl.Disable Gl.GL_BLEND)
                :: (if depth_test obj
                    then Gl.Enable Gl.GL_DEPTH_TEST else Gl.Disable Gl.GL_DEPTH_TEST)
                :: Gl.UpdateUniforms (get_program (uniform obj)) (uniform obj)
                :: match geometry obj with
                   | Some geom => [Gl.Draw geom]
                   | None => []
                   end)
             (RenderPass.get_renderables p)
    /\ Z.land mask Gl.GL_COLOR_BUFFER_BIT = Gl.GL_COLOR_BUFFER_BIT
    /\ Z.land mask Gl.GL_DEPTH_BUFFER_BIT = Gl.GL_DEPTH_BUFFER_BIT
    /\ List.filter Gl.is_draw (Gl.calls (Gl.exec Gl.render w))
       = List.filter Gl.is_draw (Gl.calls w)
         ++ flat_map Gl.draw_calls (RenderPass.get_renderables p)
    /\ (forall (tg : RenderTarget) (ls : list Layer) (flag : bool) (cs : list Gl.GlCall),
          Gl.calls (Gl.exec Gl.render
                      (Gl.mkWorld (Gl.mkGlPass (RenderPass.mk [] tg ls) flag) cs))
          = cs ++ [Gl.BindWrite tg; Gl.Clear mask]).
Proof.
  intros w p mask. rewrite render_exec. cbn [Gl.calls].
  split; [reflexivity|]. split; [reflexivity|]. split; [reflexivity|].
  split.
  - rewrite List.filter_app. cbn [List.filter Gl.is_draw].
    now rewrite spec_calls_draws.
  - intros tg ls flag cs. now rewrite render_exec.
Qed.

(** C6. A renderable without geometry gets its blending state, its
    depth-test state and its uniform binding, and no draw call; [render]
    carries on with the renderables that follow it. *)
Theorem render_without_geometry_skips_draw :
  forall (u : GlUniformInput) (blend depth : bool) (w : Gl.World)
         (pre post : list Renderable) (tg : RenderTarget) (ls : list Layer)
         (flag : bool) (cs : list Gl.GlCall),
    let obj := mkRenderable u None blend depth in
    let state_calls :=
      [if blend then Gl.Enable Gl.GL_BLEND else Gl.Disable Gl.GL_BLEND;
       if depth then Gl.Enable Gl.GL_DEPTH_TEST else Gl.Disable Gl.GL_DEPTH_TEST;
       Gl.UpdateUniforms (get_program u) u] in
    Gl.exec (Gl.render_renderable obj) w
      = Gl.mkWorld (Gl.pass w) (Gl.calls w ++ state_calls)
    /\ List.filter Gl.is_draw state_calls = []
    /\ Gl.calls (Gl.exec Gl.render
                   (Gl.mkWorld (Gl.mkGlPass (RenderPass.mk (pre ++ obj :: post) tg ls) flag) cs))
       = cs ++ Gl.BindWrite tg
            :: Gl.Clear (Z.lor Gl.GL_COLOR_BUFFER_BIT Gl.GL_DEPTH_BUFFER_BIT)
            :: flat_map Gl.spec_calls pre ++ state_calls ++ flat_map Gl.spec_calls post.
Proof.
  intros u blend depth w pre post tg ls flag cs obj state_calls.
  split; [apply render_renderable_exec|].
  split; [subst state_calls; destruct blend, depth; reflexivity|].
  rewrite render_exec. cbn [Gl.calls Gl.pass Gl.base].
  unfold RenderPass.get_renderables, RenderPass.get_target.
  cbn [RenderPass.renderables RenderPass.target].
  now rewrite flat_map_app.
Qed.

(** C10. [render] only reads the pass: afterwards the pass, and with it
    what [get_renderables], [get_layers] and [get_target] return, is what it
    was before. *)
Theorem render_leaves_pass_unchanged :
  forall w : Gl.World,
    let p := Gl.base (Gl.pass w) in
    let p' := Gl.base (Gl.pass (Gl.exec Gl.render w)) in
    Gl.pass (Gl.exec Gl.render w) = Gl.pass w
    /\ RenderPass.get_renderables p' = RenderPass.get_renderables p
    /\ RenderPass.get_layers p' = RenderPass.get_layers p
    /\ RenderPass.get_target p' = RenderPass.get_target p.
Proof.
  intros w p p'. subst p p'. rewrite render_exec. cbn [Gl.pass].
  repeat split.
Qed.

(** ** [optimise] *)

Section optimise_facts.

Import Gl.
Local Open Scope gl_scope.

(** On a pass whose flag is set [optimise] does nothing. *)
Lemma optimise_flagged w :
  is_optimised (pass w) = true -> exec optimise w = w.
Proof.
  intros Hf. unfold optimise, get_is_optimised.
  rewrite exec_reads, Hf. cbn [negb]. apply exec_ret.
Qed.

(** On a pass whose flag is clear it stores the sorted sequence and sets
    the flag. *)
Lemma optimise_unflagged w :
  is_optimised (pass w) = false ->
  exec optimise w
  = mkWorld
      (mkGlPass
         (RenderPass.set_renderables
            (stable_sort shader_less (RenderPass.get_renderables (base (pass w))))
            (base (pass w)))
         true)
      (calls w).
Proof.
  intros Hf. unfold optimise, get_is_optimised, get_renderables.
  rewrite exec_reads, Hf. cbn [negb]. rewrite exec_reads, exec_seq.
  reflexivity.
Qed.

Lemma optimise_sets_flag w : is_optimised (pass (exec optimise w)) = true.
Proof.
  destruct (is_optimised (pass w)) eqn:Hf.
  - now rewrite optimise_flagged.
  - now rewrite optimise_unflagged.
Qed.

End optimise_facts.

(** C4. A second [optimise] right after the first changes nothing: the
    first call leaves the flag set, and with the flag set the body is
    skipped. *)
Theorem optimise_twice_is_optimise_once :
  forall w : Gl.World,
    Gl.exec Gl.optimise (Gl.exec Gl.optimise w) = Gl.exec Gl.optimise w
    /\ Gl.is_optimised (Gl.pass (Gl.exec Gl.optimise w)) = true.
Proof.
  intros w. split; [|apply optimise_sets_flag].
  apply optimise_flagged, optimise_sets_flag.
Qed.

(** C9. The sequence stored after [optimise] is a permutation of the one
    stored before: nothing is added, dropped or duplicated. *)
Theorem optimise_permutes_renderables :
  forall w : Gl.World,
    Permutation
      (RenderPass.get_renderables (Gl.base (Gl.pass (Gl.exec Gl.optimise w))))
      (RenderPass.get_renderables (Gl.base (Gl.pass w))).
Proof.
  intros w. destruct (Gl.is_optimised (Gl.pass w)) eqn:Hf.
  - now rewrite optimise_flagged.
  - rewrite optimise_unflagged by exact Hf. cbn.
    exact (stable_sort_perm Gl.shader_of _).
Qed.

(** C3, as amended. On a pass whose optimisation flag is not set,
    [optimise] stable-sorts the whole renderable sequence by shader handle:
    afterwards the handles are in non-decreasing order over the whole
    sequence, and for every handle the renderables bound to it are in the
    order they had before; the flag is then set. On a pass whose flag is
    already set, [optimise] leaves the sequence, and the whole state with
    it, as it is. *)
Theorem optimise_stable_sorts_unless_flagged :
  (forall w : Gl.World,
     Gl.is_optimised (Gl.pass w) = false ->
     let before := RenderPass.get_renderables (Gl.base (Gl.pass w)) in
     let after := RenderPass.get_renderables (Gl.base (Gl.pass (Gl.exec Gl.optimise w))) in
     StronglySorted (fun a b => Gl.shader_of a <= Gl.shader_of b) after
     /\ (forall h : Z,
           List.filter (Gl.bound_to h) after = List.filter (Gl.bound_to h) before)
     /\ Gl.is_optimised (Gl.pass (Gl.exec Gl.optimise w)) = true)
  /\ (forall w : Gl.World,
        Gl.is_optimised (Gl.pass w) = true ->
        RenderPass.get_renderables (Gl.base (Gl.pass (Gl.exec Gl.optimise w)))
          = RenderPass.get_renderables (Gl.base (Gl.pass w))
        /\ Gl.exec Gl.optimise w = w).
Proof.
  split.
  - intros w Hf before after. subst before after.
    rewrite optimise_unflagged by exact Hf. cbn.
    split; [exact (stable_sort_sorted Gl.shader_of _)|].
    split; [|reflexivity].
    intros h. exact (stable_sort_filter Gl.shader_of h _).
  - intros w Hf. rewrite optimise_flagged by exact Hf. split; reflexivity.
Qed.

(** The amended C3 on a fresh pass holding programs 3, 1, 3, 2, and on
    [flagged_world], whose flag is set while it holds programs 2, 1. *)
Lemma optimise_stable_sorts_witness :
  (let w := Gl.fresh_world [Gl.on_program 1 3; Gl.on_program 2 1;
                            Gl.on_program 3 3; Gl.on_program 4 2] in
   Gl.is_optimised (Gl.pass w) = false
   /\ (let before := RenderPass.get_renderables (Gl.base (Gl.pass w)) in
       let after := RenderPass.get_renderables (Gl.base (Gl.pass (Gl.exec Gl.optimise w))) in
       StronglySorted (fun a b => Gl.shader_of a <= Gl.shader_of b) after
       /\ (forall h : Z,
             List.filter (Gl.bound_to h) after = List.filter (Gl.bound_to h) before)
       /\ Gl.is_optimised (Gl.pass (Gl.exec Gl.optimise w)) = true))
  /\ (let w := Gl.flagged_world in
      Gl.is_optimised (Gl.pass w) = true
      /\ (RenderPass.get_renderables (Gl.base (Gl.pass (Gl.exec Gl.optimise w)))
            = RenderPass.get_renderables (Gl.base (Gl.pass w))
          /\ Gl.exec Gl.optimise w = w)).
Proof.
  split.
  - intros w. split; [reflexivity|].
    apply (proj1 optimise_stable_sorts_unless_flagged w). reflexivity.
  - intros w. split; [reflexivity|].
    apply (proj2 optimise_stable_sorts_unless_flagged w). reflexivity.
Defined.

(** C3 as stated fails on a pass whose flag is already set: [flagged_world]
    stores programs 2, 1 in that order, and [optimise] leaves them so. *)
Lemma optimise_skips_flagged_pass :
  Gl.is_optimised (Gl.pass Gl.flagged_world) = true
  /\ map Gl.shader_of
       (RenderPass.get_renderables (Gl.base (Gl.pass (Gl.exec Gl.optimise Gl.flagged_world))))
     = [2; 1]
  /\ ~ StronglySorted (fun a b => Gl.shader_of a <= Gl.shader_of b)
         (RenderPass.get_renderables (Gl.base (Gl.pass (Gl.exec Gl.optimise Gl.flagged_world)))).
Proof.
  split; [reflexivity|]. split; [reflexivity|].
  intros Hs. vm_compute in Hs.
  apply StronglySorted_inv in Hs as [_ Hall].
  apply Forall_inv in Hall. apply Hall. reflexivity.
Qed.

(** * Further properties of the code *)

(** ** [add_uniform_buffer]: the uniform table *)

Section layout_table.

Import UniformLayout.

Context {ubo_input_t gl_ubo_t layout_t : Type}.
Variable GL_UBO_INPUT_TYPE : ubo_input_t -> gl_ubo_t.
Variable get_size : UniformBufferInput ubo_input_t -> layout_t -> Z.
Variable get_stride_size : ubo_input_t -> layout_t -> Z.

Local Abbreviation body := (loop_body GL_UBO_INPUT_TYPE get_size get_stride_size).
Local Abbreviation run := (loop GL_UBO_INPUT_TYPE get_size get_stride_size).
Local Abbreviation entry_of layout offset input :=
  (mkUniform (GL_UBO_INPUT_TYPE (type input)) offset (get_size input layout)
             (get_stride_size (type input) layout) (count input)).

(** The iteration in closed form. *)
Lemma loop_body_some layout offset (us : gmap string (GlInBlockUniform gl_ubo_t)) input :
  get_size input layout <> 0 ->
  body layout (offset, us) input
  = Some (SizeT.add (assigned_offset offset (get_size input layout))
                    (get_size input layout),
          emplace (name input)
                  (entry_of layout (assigned_offset offset (get_size input layout)) input)
                  us).
Proof.
  intros Hnz. unfold loop_body, SizeT.rem.
  destruct (decide (get_size input layout = 0)); [contradiction|reflexivity].
Qed.

Lemma loop_app layout st inputs1 inputs2 :
  run layout st (inputs1 ++ inputs2)
  = match run layout st inputs1 with
    | None => None
    | Some st' => run layout st' inputs2
    end.
Proof.
  revert st. induction inputs1 as [|i inputs1 IH]; intros st; [reflexivity|].
  cbn [loop app]. destruct (body layout st i); [apply IH|reflexivity].
Qed.

Lemma loop_is_Some layout inputs :
  forall st,
    is_Some (run layout st inputs)
    <-> Forall (fun input => get_size input layout <> 0) inputs.
Proof.
  induction inputs as [|i inputs IH]; intros [offset us]; cbn [loop].
  - split; [constructor|eauto].
  - destruct (decide (get_size i layout = 0)) as [Hz|Hnz].
    + rewrite loop_body_zero_size by exact Hz. split.
      * intros [? ?]; discriminate.
      * intros H. apply List.Forall_cons_iff in H as [H _]. contradiction.
    + rewrite loop_body_some by exact Hnz. rewrite IH.
      rewrite List.Forall_cons_iff. tauto.
Qed.

Lemma emplace_dom {V} k (v : V) (m : gmap string V) :
  dom (emplace k v m) =@{gset string} {[k]} ∪ dom m.
Proof.
  unfold emplace. destruct (m !! k) eqn:Hk.
  - apply elem_of_dom_2 in Hk. set_solver.
  - apply dom_insert_L.
Qed.

Lemma emplace_keeps {V} k (v : V) (m : gmap string V) k' e :
  m !! k' = Some e -> emplace k v m !! k' = Some e.
Proof.
  intros He. unfold emplace. destruct (m !! k) eqn:Hk; [exact He|].
  rewrite lookup_insert_ne; [exact He|]. congruence.
Qed.

Lemma emplace_fresh {V} k (v : V) (m : gmap string V) :
  m !! k = None -> emplace k v m !! k = Some v.
Proof. intros Hk. unfold emplace. rewrite Hk. apply lookup_insert_eq. Qed.

Lemma loop_dom layout inputs :
  forall offset us offset' us',
    run layout (offset, us) inputs = Some (offset', us') ->
    dom us' =@{gset string} dom us ∪ list_to_set (map name inputs).
Proof.
  induction inputs as [|i inputs IH]; intros offset us offset' us' Hrun; cbn [loop] in Hrun.
  - injection Hrun as <- <-. cbn. set_solver.
  - destruct (decide (get_size i layout = 0)) as [Hz|Hnz].
    + rewrite loop_body_zero_size in Hrun by exact Hz. discriminate.
    + rewrite loop_body_some in Hrun by exact Hnz.
      apply IH in Hrun. rewrite Hrun, emplace_dom. cbn [map list_to_set]. set_solver.
Qed.

Lemma loop_keeps layout inputs :
  forall offset us offset' us' k e,
    run layout (offset, us) inputs = Some (offset', us') ->
    us !! k = Some e -> us' !! k = Some e.
Proof.
  induction inputs as [|i inputs IH]; intros offset us offset' us' k e Hrun He;
    cbn [loop] in Hrun.
  - injection Hrun as <- <-. exact He.
  - destruct (decide (get_size i layout = 0)) as [Hz|Hnz].
    + rewrite loop_body_zero_size in Hrun by exact Hz. discriminate.
    + rewrite loop_body_some in Hrun by exact Hnz.
      eapply IH; [exact Hrun|]. now apply emplace_keeps.
Qed.

(** X1. [add_uniform_buffer] yields a buffer exactly when no input has size
    zero; a zero-sized input leaves [offset % size] without a value. *)
Theorem add_uniform_buffer_defined_iff_sizes_nonzero :
  forall info : UniformBufferInfo,
    is_Some (add_uniform_buffer GL_UBO_INPUT_TYPE get_size get_stride_size info)
    <-> Forall (fun input => get_size input (get_layout info) <> 0) (get_inputs info).
Proof.
  intros info. rewrite <- (loop_is_Some (get_layout info) (get_inputs info) (0, ∅)).
  unfold add_uniform_buffer.
  destruct (run (get_layout info) (0, ∅) (get_inputs info)) as [[offset us]|].
  - split; eauto.
  - split; intros [? ?]; discriminate.
Qed.

(** X2. The table of the buffer has exactly the names of the inputs as
    keys, and the size of the buffer is the one the info reports, not the
    offset the loop ends at. *)
Theorem add_uniform_buffer_names_and_size :
  forall (info : UniformBufferInfo) (buf : GlUniformBuffer),
    add_uniform_buffer GL_UBO_INPUT_TYPE get_size get_stride_size info = Some buf ->
    dom (uniforms buf) =@{gset string} list_to_set (map name (get_inputs info))
    /\ data_size buf = info_get_size info.
Proof.
  intros info buf. unfold add_uniform_buffer.
  destruct (run (get_layout info) (0, ∅) (get_inputs info)) as [[offset us]|] eqn:Hrun;
    [|discriminate].
  intros [= <-]. cbn [uniforms data_size]. split; [|reflexivity].
  apply loop_dom in Hrun. rewrite Hrun. set_solver.
Qed.

(** X3. Of several inputs with one name the first is the one recorded:
    [emplace] does not replace an entry, so the table describes the type,
    size, stride and count of the first input of that name. *)
Theorem add_uniform_buffer_first_name_wins :
  forall (info : UniformBufferInfo) (buf : GlUniformBuffer)
         (pre post : list (UniformBufferInput ubo_input_t))
         (input : UniformBufferInput ubo_input_t),
    get_inputs info = pre ++ input :: post ->
    ~ In (name input) (map name pre) ->
    add_uniform_buffer GL_UBO_INPUT_TYPE get_size get_stride_size info = Some buf ->
    exists offset,
      uniforms buf !! name input = Some (entry_of (get_layout info) offset input).
Proof.
  intros info buf pre post input Hsplit Hfresh. unfold add_uniform_buffer.
  rewrite Hsplit, loop_app.
  destruct (run (get_layout info) (0, ∅) pre) as [[off1 us1]|] eqn:Hpre; [|discriminate].
  cbn [loop].
  destruct (decide (get_size input (get_layout info) = 0)) as [Hz|Hnz].
  { rewrite loop_body_zero_size by exact Hz. discriminate. }
  rewrite loop_body_some by exact Hnz.
  match goal with |- context [run _ ?st post] =>
    destruct (run (get_layout info) st post) as [[off3 us3]|] eqn:Hpost end; [|discriminate].
  intros [= <-]. cbn [uniforms]. eexists.
  eapply loop_keeps; [exact Hpost|].
  apply emplace_fresh. apply not_elem_of_dom.
  apply loop_dom in Hpre. rewrite Hpre, dom_empty_L.
  intros Hin. apply Hfresh. apply list_elem_of_In. set_solver.
Qed.

End layout_table.

(** ** [add_uniform_buffer]: the offsets *)

Lemma assigned_offset_exact offset size :
  0 < size -> 0 <= offset -> offset + size <= SizeT.modulus ->
  UniformLayout.assigned_offset offset size = offset + offset mod size.
Proof.
  intros Hs Ho Hb. unfold UniformLayout.assigned_offset, SizeT.add.
  pose proof (Z.mod_pos_bound offset size Hs). apply wrap_small. lia.
Qed.

Section layout_offsets.

Import UniformLayout.

Context {ubo_input_t gl_ubo_t layout_t : Type}.
Variable GL_UBO_INPUT_TYPE : ubo_input_t -> gl_ubo_t.
Variable get_size : UniformBufferInput ubo_input_t -> layout_t -> Z.
Variable get_stride_size : ubo_input_t -> layout_t -> Z.

Local Abbreviation run := (loop GL_UBO_INPUT_TYPE get_size get_stride_size).
Local Abbreviation total layout inputs := (Observe.sum_sizes get_size layout inputs).
Local Abbreviation positive layout :=
  (Forall (fun input : UniformBufferInput ubo_input_t => 0 < get_size input layout)).

Lemma sum_sizes_app layout inputs1 inputs2 :
  total layout (inputs1 ++ inputs2) = total layout inputs1 + total layout inputs2.
Proof.
  induction inputs1 as [|i inputs1 IH]; cbn [app Observe.sum_sizes]; lia.
Qed.

Lemma sum_sizes_nonneg layout inputs :
  positive layout inputs -> 0 <= total layout inputs.
Proof.
  induction 1 as [|i inputs Hi _ IH]; cbn [Observe.sum_sizes]; lia.
Qed.

(** While nothing wraps, the running offset moves forward by at least the
    sizes and by less than twice the sizes, and every entry added lies
    between the offset the loop started at and the one it ended at. *)
Lemma loop_bounds layout inputs :
  forall offset us offset' us',
    positive layout inputs ->
    0 <= offset ->
    offset + 2 * total layout inputs <= SizeT.modulus ->
    run layout (offset, us) inputs = Some (offset', us') ->
    offset + total layout inputs <= offset' <= offset + 2 * total layout inputs
    /\ forall k e,
         us !! k = None -> us' !! k = Some e ->
         offset <= u_offset e /\ u_offset e + u_size e <= offset'.
Proof.
  induction inputs as [|i inputs IH]; intros offset us offset' us' Hpos Ho Hb Hrun;
    cbn [loop] in Hrun.
  - injection Hrun as <- <-. cbn [Observe.sum_sizes]. split; [lia|].
    intros k e Hn Hs. congruence.
  - apply List.Forall_cons_iff in Hpos as [Hi Hpos].
    pose proof (sum_sizes_nonneg layout inputs Hpos) as Hnn.
    cbn [Observe.sum_sizes] in *.
    rewrite loop_body_some in Hrun by lia.
    set (s := get_size i layout) in *.
    pose proof (Z.mod_pos_bound offset s Hi) as Hr.
    rewrite assigned_offset_exact in Hrun by lia.
    unfold SizeT.add in Hrun. rewrite wrap_small in Hrun by lia.
    pose proof Hrun as Hrun'.
    apply IH in Hrun' as [Hoff Hent]; [|exact Hpos|lia|lia].
    split; [lia|].
    intros k e Hn Hs.
    match type of Hrun with run _ (_, ?us1) _ = _ => destruct (us1 !! k) as [e1|] eqn:H1 end.
    + pose proof (loop_keeps _ _ _ _ _ _ _ _ _ k e1 Hrun H1) as Hk.
      assert (e = e1) by congruence. subst e1.
      unfold emplace in H1.
      destruct (us !! name i) eqn:Hni; [congruence|].
      rewrite lookup_insert in H1.
      destruct (decide (name i = k)) as [<-|Hne]; [|congruence].
      injection H1 as <-. cbn [u_offset u_size]. fold s. lia.
    + specialize (Hent k e H1 Hs). lia.
Qed.

(** X4. With positive sizes and no wrap-around (twice the sum of the sizes
    fits [size_t]) the entries of inputs with distinct names do not overlap:
    an input that comes later starts at or after the end of an earlier
    one. *)
Theorem add_uniform_buffer_entries_do_not_overlap :
  forall (info : UniformBufferInfo) (buf : GlUniformBuffer)
         (pre mid post : list (UniformBufferInput ubo_input_t))
         (i j : UniformBufferInput ubo_input_t),
    get_inputs info = pre ++ i :: mid ++ j :: post ->
    NoDup (map name (get_inputs info)) ->
    positive (get_layout info) (get_inputs info) ->
    2 * total (get_layout info) (get_inputs info) <= SizeT.modulus ->
    add_uniform_buffer GL_UBO_INPUT_TYPE get_size get_stride_size info = Some buf ->
    exists ei ej,
      uniforms buf !! name i = Some ei
      /\ uniforms buf !! name j = Some ej
      /\ u_size ei = get_size i (get_layout info)
      /\ u_offset ei + u_size ei <= u_offset ej.
Proof.
  intros info buf pre mid post i j Hsplit Hnd Hpos Hb. unfold add_uniform_buffer.
  rewrite Hsplit in *. clear Hsplit. set (layout := get_layout info) in *.
  rewrite !map_app in Hnd. cbn [map] in Hnd. rewrite map_app in Hnd. cbn [map] in Hnd.
  apply NoDup_app in Hnd as (_ & Hpre & Hnd).
  apply NoDup_cons in Hnd as (Hi & Hnd).
  apply NoDup_app in Hnd as (_ & Hmid & Hnd).
  apply NoDup_cons in Hnd as (_ & _).
  rewrite sum_sizes_app in Hb. cbn [Observe.sum_sizes] in Hb.
  apply Forall_app in Hpos as [Hpos_pre Hpos].
  apply List.Forall_cons_iff in Hpos as [Hpos_i Hpos_rest].
  pose proof (sum_sizes_nonneg layout _ Hpos_pre) as Hnn_pre.
  pose proof (sum_sizes_nonneg layout _ Hpos_rest) as Hnn_rest.
  rewrite loop_app.
  destruct (run layout (0, ∅) pre) as [[off1 us1]|] eqn:Hrun1; [|discriminate].
  pose proof (loop_bounds layout pre 0 ∅ off1 us1 Hpos_pre ltac:(lia) ltac:(lia) Hrun1)
    as [Hoff1 _].
  pose proof Hrun1 as Hdom1. apply loop_dom in Hdom1. rewrite dom_empty_L in Hdom1.
  cbn [loop]. rewrite loop_body_some by lia.
  set (s := get_size i layout) in *.
  pose proof (Z.mod_pos_bound off1 s Hpos_i) as Hr.
  rewrite assigned_offset_exact by lia.
  unfold SizeT.add. rewrite wrap_small by lia.
  match goal with |- context [run layout (?o, ?u) _] =>
    set (off2 := o); set (us2 := u) end.
  destruct (run layout (off2, us2) (mid ++ j :: post)) as [[off' us']|] eqn:Hrun2;
    [|discriminate].
  intros [= <-]. cbn [uniforms].
  assert (Hfresh_i : us1 !! name i = None).
  { apply not_elem_of_dom. rewrite Hdom1. intros Hin.
    apply (Hpre (name i)); [|left].
    apply list_elem_of_In. set_solver. }
  assert (Hei : us2 !! name i
                = Some (mkUniform (GL_UBO_INPUT_TYPE (type i)) (off1 + off1 mod s) s
                                  (get_stride_size (type i) layout) (count i))).
  { subst us2. now apply emplace_fresh. }
  pose proof (loop_keeps _ _ _ _ _ _ _ _ _ _ _ Hrun2 Hei) as Hei'.
  pose proof Hrun2 as Hdom2. apply loop_dom in Hdom2.
  assert (Hj : is_Some (us' !! name j)).
  { apply elem_of_dom. rewrite Hdom2, map_app. cbn [map]. set_solver. }
  destruct Hj as [ej Hej].
  assert (Hfresh_j : us2 !! name j = None).
  { apply not_elem_of_dom. subst us2. rewrite emplace_dom, Hdom1.
    intros Hin. apply elem_of_union in Hin as [Hin|Hin].
    - apply elem_of_singleton in Hin. apply Hi. rewrite <- Hin.
      apply elem_of_app. right. left.
    - apply (Hpre (name j)).
      + apply list_elem_of_In. set_solver.
      + right. apply elem_of_app. right. left. }
  pose proof (loop_bounds layout _ off2 us2 off' us' Hpos_rest) as Hbnd.
  destruct Hbnd as [_ Hent]; [subst off2; lia|subst off2; lia|exact Hrun2|].
  destruct (Hent _ _ Hfresh_j Hej) as [Hge _].
  exists (mkUniform (GL_UBO_INPUT_TYPE (type i)) (off1 + off1 mod s) s
                    (get_stride_size (type i) layout) (count i)), ej.
  split; [exact Hei'|]. split; [exact Hej|]. split; [reflexivity|].
  cbn [u_offset u_size]. subst off2. lia.
Qed.

(** X5. When nothing wraps, a new input is recorded at
    [offset + offset % size]. That offset is a multiple of the size exactly
    when the running offset was one already or sat half a size past one; in
    every other case the entry is misaligned. *)
Theorem loop_body_offset_aligned_iff :
  forall (layout : layout_t) (offset : Z) (us : gmap string (GlInBlockUniform gl_ubo_t))
         (input : UniformBufferInput ubo_input_t),
    0 < get_size input layout ->
    0 <= offset ->
    offset + 2 * get_size input layout <= SizeT.modulus ->
    us !! name input = None ->
    let size := get_size input layout in
    exists us',
      loop_body GL_UBO_INPUT_TYPE get_size get_stride_size layout (offset, us) input
        = Some (offset + offset mod size + size, us')
      /\ u_offset <$> us' !! name input = Some (offset + offset mod size)
      /\ ((offset + offset mod size) mod size = 0
          <-> offset mod size = 0 \/ 2 * (offset mod size) = size).
Proof.
  intros layout offset us input Hs Ho Hb Hfresh size. subst size.
  set (s := get_size input layout) in *.
  pose proof (Z.mod_pos_bound offset s Hs) as Hr.
  exists (emplace (name input)
            (mkUniform (GL_UBO_INPUT_TYPE (type input)) (offset + offset mod s) s
                       (get_stride_size (type input) layout) (count input))
            us).
  split; [|split].
  - rewrite loop_body_some by (fold s; lia). fold s.
    rewrite (assigned_offset_exact offset s) by lia.
    unfold SizeT.add. rewrite wrap_small by lia. reflexivity.
  - rewrite emplace_fresh by exact Hfresh. reflexivity.
  - rewrite Z.add_mod, Z.mod_mod by lia.
    set (r := offset mod s) in *.
    destruct (Z.lt_ge_cases (r + r) s) as [Hlt|Hge].
    + rewrite Z.mod_small by lia. lia.
    + replace (r + r) with ((r + r - s) + 1 * s) by lia.
      rewrite Z.mod_add by lia. rewrite Z.mod_small by lia. lia.
Qed.

End layout_offsets.

(** X2 on the inputs [[vec4 a, float b, vec4 c]] with a reported size of 48. *)
Lemma add_uniform_buffer_names_and_size_witness :
  let info := UniformLayout.mkInfo UniformLayout.vec4_float_vec4 UniformLayout.STD140 48 in
  exists buf,
    UniformLayout.add_uniform_buffer (fun _ => 0) UniformLayout.std140_get_size
        (fun _ _ => 0) info = Some buf
    /\ (dom (UniformLayout.uniforms buf) =@{gset string} {["a"; "b"; "c"]}
        /\ UniformLayout.data_size buf = 48).
Proof.
  intros info. eexists. split; [reflexivity|].
  apply (add_uniform_buffer_names_and_size (fun _ => 0) UniformLayout.std140_get_size
           (fun _ _ => 0) info).
  reflexivity.
Defined.

(** X3 on two inputs named [a], a vec4 followed by a float: the entry is
    the vec4's. *)
Lemma add_uniform_buffer_first_name_wins_witness :
  let first := UniformLayout.mkInput "a" UniformLayout.V4F32 1 in
  let second := UniformLayout.mkInput "a" UniformLayout.F32 7 in
  let info := UniformLayout.mkInfo [first; second] UniformLayout.STD140 32 in
  exists buf,
    UniformLayout.add_uniform_buffer (fun _ => 0) UniformLayout.std140_get_size
        (fun _ _ => 0) info = Some buf
    /\ exists offset,
         UniformLayout.uniforms buf !! "a"
         = Some (UniformLayout.mkUniform 0 offset 16 0 1).
Proof.
  intros first second info. eexists. split; [reflexivity|].
  apply (add_uniform_buffer_first_name_wins (fun _ => 0) UniformLayout.std140_get_size
           (fun _ _ => 0) info _ [] [second] first).
  - reflexivity.
  - intros H. exact H.
  - reflexivity.
Defined.

(** X4 on [[vec4 a, float b, vec4 c]]: [c] starts after the end of [a]. *)
Lemma add_uniform_buffer_entries_do_not_overlap_witness :
  let a := UniformLayout.mkInput "a" UniformLayout.V4F32 1 in
  let b := UniformLayout.mkInput "b" UniformLayout.F32 1 in
  let c := UniformLayout.mkInput "c" UniformLayout.V4F32 1 in
  let info := UniformLayout.mkInfo [a; b; c] UniformLayout.STD140 48 in
  exists buf,
    UniformLayout.add_uniform_buffer (fun _ => 0) UniformLayout.std140_get_size
        (fun _ _ => 0) info = Some buf
    /\ exists ei ej,
         UniformLayout.uniforms buf !! "a" = Some ei
         /\ UniformLayout.uniforms buf !! "c" = Some ej
         /\ UniformLayout.u_size ei = 16
         /\ UniformLayout.u_offset ei + UniformLayout.u_size ei
            <= UniformLayout.u_offset ej.
Proof.
  intros a b c info. eexists. split; [reflexivity|].
  apply (add_uniform_buffer_entries_do_not_overlap (fun _ => 0)
           UniformLayout.std140_get_size (fun _ _ => 0) info _ [] [b] [] a c).
  - reflexivity.
  - apply (bool_decide_unpack _). vm_compute. exact I.
  - repeat constructor.
  - vm_compute. discriminate.
  - reflexivity.
Defined.

(** X5 at the running offset 20 with a 16-byte input: recorded at 24, which
    is no multiple of 16. *)
Lemma loop_body_offset_aligned_iff_witness :
  let c := UniformLayout.mkInput "c" UniformLayout.V4F32 1 in
  exists us',
    UniformLayout.loop_body (fun _ => 0) UniformLayout.std140_get_size (fun _ _ => 0)
        UniformLayout.STD140 (20, ∅) c
      = Some (20 + 20 mod 16 + 16, us')
    /\ UniformLayout.u_offset <$> us' !! "c" = Some (20 + 20 mod 16)
    /\ ((20 + 20 mod 16) mod 16 = 0 <-> 20 mod 16 = 0 \/ 2 * (20 mod 16) = 16).
Proof.
  intros c.
  apply (loop_body_offset_aligned_iff (fun _ => 0) UniformLayout.std140_get_size
           (fun _ _ => 0) UniformLayout.STD140 20 ∅ c).
  - reflexivity.
  - vm_compute. discriminate.
  - vm_compute. discriminate.
  - reflexivity.
Defined.

(** ** [render] and [optimise]: the log of calls *)

Section trace_facts.

Import Gl.

Lemma bound_programs_app cs1 cs2 :
  Observe.bound_programs (cs1 ++ cs2)
  = Observe.bound_programs cs1 ++ Observe.bound_programs cs2.
Proof.
  induction cs1 as [|c cs1 IH]; [reflexivity|].
  destruct c; cbn [app Observe.bound_programs]; rewrite IH; reflexivity.
Qed.

Lemma bound_programs_spec_calls rs :
  Observe.bound_programs (flat_map spec_calls rs) = map shader_of rs.
Proof.
  induction rs as [|obj rs IH]; [reflexivity|].
  cbn [flat_map map]. rewrite bound_programs_app, IH.
  unfold spec_calls, blend_call, depth_call, bind_call, draw_calls, shader_of.
  destruct (alpha_blending obj), (depth_test obj), (geometry obj); reflexivity.
Qed.

Lemma sorted_by_shader_map rs :
  StronglySorted (fun a b => shader_of a <= shader_of b) rs ->
  StronglySorted Z.le (map shader_of rs).
Proof.
  induction 1 as [|obj rs _ IH Hall]; cbn [map]; constructor; [exact IH|].
  apply List.Forall_map. exact Hall.
Qed.

(** A draw in the calls of a frame comes right after the uniform update of
    a renderable that owns the geometry. *)
Lemma draw_after_bind rs :
  forall before g after,
    flat_map spec_calls rs = before ++ Draw g :: after ->
    exists before' obj,
      before = before' ++ [bind_call obj] /\ In obj rs /\ geometry obj = Some g.
Proof.
  induction rs as [|obj rs IH]; intros before g after Heq; cbn [flat_map] in Heq.
  - destruct before; discriminate.
  - unfold spec_calls at 1 in Heq. cbn [app] in Heq.
    destruct before as [|c1 [|c2 [|c3 before]]]; cbn [app] in Heq.
    + unfold blend_call in Heq. destruct (alpha_blending obj); discriminate.
    + unfold depth_call in Heq. destruct (depth_test obj); discriminate.
    + unfold bind_call in Heq. discriminate.
    + injection Heq as <- <- <- Heq. unfold draw_calls in Heq.
      destruct (geometry obj) as [geom|] eqn:Hgeom; cbn [app] in Heq.
      * destruct before as [|c4 before]; cbn [app] in Heq.
        -- injection Heq as <- _.
           exists [blend_call obj; depth_call obj], obj.
           repeat split; [now left|exact Hgeom].
        -- injection Heq as <- Heq.
           destruct (IH _ _ _ Heq) as (before' & obj' & -> & Hin & Hg).
           exists (blend_call obj :: depth_call obj :: bind_call obj :: Draw geom :: before'), obj'.
           repeat split; [now right|exact Hg].
      * destruct (IH _ _ _ Heq) as (before' & obj' & -> & Hin & Hg).
        exists (blend_call obj :: depth_call obj :: bind_call obj :: before'), obj'.
        repeat split; [now right|exact Hg].
Qed.

End trace_facts.

(** X6. [render] is repeatable: a second call issues the calls of the
    first once more, the bind and the clear included, and the pass is still
    the one it was. *)
Theorem render_twice_repeats_frame :
  forall w : Gl.World,
    exists frame,
      Gl.calls (Gl.exec Gl.render w) = Gl.calls w ++ frame
      /\ Gl.calls (Gl.exec Gl.render (Gl.exec Gl.render w)) = Gl.calls w ++ frame ++ frame
      /\ Gl.pass (Gl.exec Gl.render (Gl.exec Gl.render w)) = Gl.pass w.
Proof.
  intros w. eexists. rewrite !render_exec. cbn [Gl.calls Gl.pass].
  split; [reflexivity|]. split; [|reflexivity].
  now rewrite <- app_assoc.
Qed.

(** X7. [render] never draws a geometry without having bound the uniform
    input of its renderable in the call just before: every draw in the
    calls of a frame directly follows the uniform update of a renderable of
    the pass that owns the geometry drawn. *)
Theorem render_draw_follows_uniform_update :
  forall (w : Gl.World) (before after : list Gl.GlCall) (g : GlGeometry),
    Gl.calls (Gl.exec Gl.render w) = Gl.calls w ++ before ++ Gl.Draw g :: after ->
    exists before' obj,
      before = before' ++ [Gl.UpdateUniforms (get_program (uniform obj)) (uniform obj)]
      /\ In obj (RenderPass.get_renderables (Gl.base (Gl.pass w)))
      /\ geometry obj = Some g.
Proof.
  intros w before after g Heq. rewrite render_exec in Heq. cbn [Gl.calls] in Heq.
  apply app_inv_head in Heq.
  destruct before as [|c1 [|c2 before]]; cbn [app] in Heq; try discriminate.
  injection Heq as <- <- Heq.
  destruct (draw_after_bind _ _ _ _ Heq) as (before' & obj & -> & Hin & Hg).
  exists (Gl.BindWrite (RenderPass.get_target (Gl.base (Gl.pass w)))
          :: Gl.Clear (Z.lor Gl.GL_COLOR_BUFFER_BIT Gl.GL_DEPTH_BUFFER_BIT)
          :: before'), obj.
  repeat split; assumption.
Qed.

(** X7 on a pass with one renderable that has a geometry. *)
Lemma render_draw_follows_uniform_update_witness :
  let obj := Gl.on_program 1 7 in
  let w := Gl.fresh_world [obj] in
  let before := [Gl.BindWrite (mkTarget 0); Gl.Clear 0x4100;
                 Gl.Enable Gl.GL_BLEND; Gl.Enable Gl.GL_DEPTH_TEST;
                 Gl.UpdateUniforms (mkProgram 7) (mkUniformInput 1 (mkProgram 7))] in
  Gl.calls (Gl.exec Gl.render w)
    = Gl.calls w ++ before ++ Gl.Draw (mkGeometry 1) :: []
  /\ exists before' obj',
       before = before' ++ [Gl.UpdateUniforms (get_program (uniform obj')) (uniform obj')]
       /\ In obj' (RenderPass.get_renderables (Gl.base (Gl.pass w)))
       /\ geometry obj' = Some (mkGeometry 1).
Proof.
  intros obj w before. split; [reflexivity|].
  apply (render_draw_follows_uniform_update w before [] (mkGeometry 1)).
  reflexivity.
Defined.

(** X8. A frame rendered after [optimise] on a pass whose flag was clear
    binds the programs in non-decreasing handle order, so each program is
    bound in one run, and draws the geometries the pass held before, each as
    often as before. *)
Theorem render_after_optimise_groups_programs :
  forall w : Gl.World,
    Gl.is_optimised (Gl.pass w) = false ->
    exists frame,
      Gl.calls (Gl.exec Gl.render (Gl.exec Gl.optimise w)) = Gl.calls w ++ frame
      /\ StronglySorted Z.le (Observe.bound_programs frame)
      /\ Permutation (List.filter Gl.is_draw frame)
           (flat_map Gl.draw_calls (RenderPass.get_renderables (Gl.base (Gl.pass w)))).
Proof.
  intros w Hf. eexists. rewrite render_exec.
  rewrite optimise_unflagged by exact Hf. cbn [Gl.calls Gl.pass Gl.base].
  split; [reflexivity|].
  unfold RenderPass.get_renderables at 1 2, RenderPass.set_renderables.
  cbn [RenderPass.renderables Observe.bound_programs List.filter Gl.is_draw].
  split.
  - rewrite bound_programs_spec_calls. apply sorted_by_shader_map.
    exact (stable_sort_sorted Gl.shader_of _).
  - rewrite spec_calls_draws. apply Permutation_flat_map.
    exact (stable_sort_perm Gl.shader_of _).
Qed.

(** X8 on a fresh pass holding programs 3, 1, 3, 2. *)
Lemma render_after_optimise_groups_programs_witness :
  let w := Gl.fresh_world [Gl.on_program 1 3; Gl.on_program 2 1;
                           Gl.on_program 3 3; Gl.on_program 4 2] in
  Gl.is_optimised (Gl.pass w) = false
  /\ exists frame,
       Gl.calls (Gl.exec Gl.render (Gl.exec Gl.optimise w)) = Gl.calls w ++ frame
       /\ StronglySorted Z.le (Observe.bound_programs frame)
       /\ Permutation (List.filter Gl.is_draw frame)
            (flat_map Gl.draw_calls (RenderPass.get_renderables (Gl.base (Gl.pass w)))).
Proof.
  intros w. split; [reflexivity|].
  apply (render_after_optimise_groups_programs w). reflexivity.
Defined.

(** X9. [optimise] issues no call to the graphics API, and on a pass whose
    renderables are already in shader order it stores the sequence it
    found, whether the flag was set or not. *)
Theorem optimise_keeps_sorted_sequence :
  forall w : Gl.World,
    StronglySorted (fun a b => Gl.shader_of a <= Gl.shader_of b)
      (RenderPass.get_renderables (Gl.base (Gl.pass w))) ->
    RenderPass.get_renderables (Gl.base (Gl.pass (Gl.exec Gl.optimise w)))
      = RenderPass.get_renderables (Gl.base (Gl.pass w))
    /\ Gl.calls (Gl.exec Gl.optimise w) = Gl.calls w.
Proof.
  intros w Hs. destruct (Gl.is_optimised (Gl.pass w)) eqn:Hf.
  - rewrite optimise_flagged by exact Hf. split; reflexivity.
  - rewrite optimise_unflagged by exact Hf. cbn. split; [|reflexivity].
    exact (stable_sort_sorted_id Gl.shader_of _ Hs).
Qed.

(** X9 on a fresh pass holding programs 1, 1, 2. *)
Lemma optimise_keeps_sorted_sequence_witness :
  let w := Gl.fresh_world [Gl.on_program 1 1; Gl.on_program 2 1; Gl.on_program 3 2] in
  StronglySorted (fun a b => Gl.shader_of a <= Gl.shader_of b)
    (RenderPass.get_renderables (Gl.base (Gl.pass w)))
  /\ (RenderPass.get_renderables (Gl.base (Gl.pass (Gl.exec Gl.optimise w)))
        = RenderPass.get_renderables (Gl.base (Gl.pass w))
      /\ Gl.calls (Gl.exec Gl.optimise w) = Gl.calls w).
Proof.
  intros w.
  assert (Hs : StronglySorted (fun a b => Gl.shader_of a <= Gl.shader_of b)
                 (RenderPass.get_renderables (Gl.base (Gl.pass w)))).
  { vm_compute. repeat constructor; discriminate. }
  split; [exact Hs|].
  apply (optimise_keeps_sorted_sequence w Hs).
Defined.

(** ** [create_texture_target] *)

Lemma create_texture_target_loop textures :
  forall acc,
    fold_left (fun gl_textures tex =>
                 TextureTarget.push_back gl_textures (TextureTarget.dynamic_pointer_cast tex))
              textures acc
    = acc ++ map TextureTarget.dynamic_pointer_cast textures.
Proof.
  induction textures as [|tex textures IH]; intros acc; cbn [fold_left map].
  - now rewrite app_nil_r.
  - rewrite IH. unfold TextureTarget.push_back. now rewrite <- app_assoc.
Qed.

(** X10. [create_texture_target] hands on one entry per texture, in the
    order given: the entry at a position is the texture at that position if
    it is an OpenGL texture, and a null pointer if it is of another backend
    or null. No texture is rejected, dropped or moved. *)
Theorem create_texture_target_keeps_positions :
  forall textures : list (option TextureTarget.Texture2d),
    List.length (TextureTarget.create_texture_target textures) = List.length textures
    /\ forall i : nat,
         TextureTarget.create_texture_target textures !! i
         = TextureTarget.dynamic_pointer_cast <$> textures !! i.
Proof.
  intros textures. unfold TextureTarget.create_texture_target.
  rewrite create_texture_target_loop. cbn [app]. split.
  - apply List.length_map.
  - intros i. apply list_lookup_fmap.
Qed.

(** ** [SpawnEntityHandler::invoke] *)

Section spawn_facts.

Import SpawnEntity.

(** The name [invoke] picks at a given value of the index. *)
Let name_at (i : Z) : string :=
  nth (Z.to_nat (i mod 5)) test_entities "".

Lemma invoke_in_range i sp :
  0 <= i < 5 ->
  invoke (mkState i sp) = Some (mkState ((i + 1) mod 5) (sp ++ [name_at i])).
Proof.
  intros Hi.
  assert (Hcases : i = 0 \/ i = 1 \/ i = 2 \/ i = 3 \/ i = 4) by lia.
  destruct Hcases as [->|[->|[->|[->| ->]]]]; reflexivity.
Qed.

Lemma invoke_n_from i sp n :
  0 <= i < 5 ->
  invoke_n n (mkState i sp)
  = Some (mkState ((i + Z.of_nat n) mod 5)
                  (sp ++ map (fun k => name_at (i + Z.of_nat k)) (seq 0 n))).
Proof.
  revert i sp. induction n as [|n IH]; intros i sp Hi.
  - cbn [invoke_n seq map]. rewrite app_nil_r, Z.add_0_r, Z.mod_small by lia.
    reflexivity.
  - cbn [invoke_n]. rewrite invoke_in_range by exact Hi.
    rewrite IH by (apply Z.mod_pos_bound; lia).
    f_equal. f_equal.
    + rewrite Zplus_mod_idemp_l. f_equal. lia.
    + rewrite <- app_assoc. f_equal. cbn [seq map app]. f_equal.
      * f_equal. lia.
      * rewrite <- seq_shift, map_map. apply map_ext. intros k.
        unfold name_at. rewrite Zplus_mod_idemp_l. do 3 f_equal. lia.
Qed.

End spawn_facts.

(** X11. While the index is below the number of test entities, [invoke]
    does not throw: it spawns the entity at the index, only that one, and
    leaves the index advanced by one modulo five, again below five. *)
Theorem invoke_spawns_one_and_advances :
  forall st : SpawnEntity.state,
    0 <= SpawnEntity.index st < 5 ->
    exists st' nyan_entity,
      SpawnEntity.invoke st = Some st'
      /\ SpawnEntity.test_entities !! Z.to_nat (SpawnEntity.index st) = Some nyan_entity
      /\ SpawnEntity.spawned st' = SpawnEntity.spawned st ++ [nyan_entity]
      /\ SpawnEntity.index st' = (SpawnEntity.index st + 1) mod 5
      /\ 0 <= SpawnEntity.index st' < 5.
Proof.
  intros [i sp] Hi. cbn [SpawnEntity.index SpawnEntity.spawned] in *.
  rewrite invoke_in_range by exact Hi.
  eexists. eexists. split; [reflexivity|].
  cbn [SpawnEntity.index SpawnEntity.spawned].
  split; [|split; [reflexivity|split; [reflexivity|apply Z.mod_pos_bound; lia]]].
  assert (Hcases : i = 0 \/ i = 1 \/ i = 2 \/ i = 3 \/ i = 4) by lia.
  destruct Hcases as [->|[->|[->|[->| ->]]]]; reflexivity.
Qed.

(** X11 at the last index, 4: the academy is spawned and the index returns
    to 0. *)
Lemma invoke_spawns_one_and_advances_witness :
  let st := SpawnEntity.mkState 4 [] in
  0 <= SpawnEntity.index st < 5
  /\ exists st' nyan_entity,
       SpawnEntity.invoke st = Some st'
       /\ SpawnEntity.test_entities !! Z.to_nat (SpawnEntity.index st) = Some nyan_entity
       /\ SpawnEntity.spawned st' = SpawnEntity.spawned st ++ [nyan_entity]
       /\ SpawnEntity.index st' = (SpawnEntity.index st + 1) mod 5
       /\ 0 <= SpawnEntity.index st' < 5.
Proof.
  intros st.
  assert (Hi : 0 <= SpawnEntity.index st < 5) by (cbn; lia).
  split; [exact Hi|].
  apply (invoke_spawns_one_and_advances st Hi).
Defined.

(** X12. From the initial state any number of calls of [invoke] goes
    through: after [n] calls the index is [n mod 5], and the entities
    spawned are the five test entities in their order, round and round: the
    call number [k] (from 0) spawns the entity at position [k mod 5]. *)
Theorem invoke_cycles_through_test_entities :
  forall n : nat,
    SpawnEntity.invoke_n n SpawnEntity.initial
    = Some (SpawnEntity.mkState
              (Z.of_nat n mod 5)
              (map (fun k => nth (k mod 5)%nat SpawnEntity.test_entities "") (seq 0 n))).
Proof.
  intros n. unfold SpawnEntity.initial.
  rewrite invoke_n_from by lia. cbn [app]. f_equal. f_equal.
  apply map_ext. intros k. cbn beta. f_equal.
  rewrite Z.add_0_l. change 5 with (Z.of_nat 5).
  rewrite <- Nat2Z.inj_mod. apply Nat2Z.id.
Qed.
